(** * GoGraphQL: the todo resolvers of main.go

    A shallow embedding of the five GraphQL resolvers of [main.go] and of
    the package-level slice [TodoList] they share, followed by the
    properties of the resolvers.

    The package-level variable [TodoList] is threaded explicitly: every
    resolver takes the current slice and gives back the slice it leaves
    behind.  [params.Args] is a [map[string]interface{}], modelled as a
    finite map from argument names to dynamically typed values.  A resolver
    returns an [interface{}] together with an [error]; a slice index out of
    range is a run-time panic.  [fmt.Println] in [createTodo] writes to the
    standard output only and is left out. *)

From Stdlib Require Import ZArith Ascii.
From stdpp Require Import gmap strings list fin_maps.


(** ** Data model *)

(** [type Todo struct]. *)
Record Todo : Type := mkTodo {
  ID : string;
  Text : string;
  Done : bool;
  Task : string
}.

(** [Todo{}], the zero value of the struct. *)
Definition zeroTodo : Todo := mkTodo "" "" false "".

(** The dynamically typed values an argument map can hold. *)
Inductive Value : Type :=
| VString (s : string)
| VBool (b : bool)
| VInt (n : Z).

(** [v, ok := x.(string)] on the result of a map read: a missing key reads
    as the nil interface, for which the assertion gives the zero value and
    [false]. *)
Definition assertString (x : option Value) : string * bool :=
  match x with
  | Some (VString s) => (s, true)
  | _ => ("", false)
  end.

(** [v, ok := x.(bool)]. *)
Definition assertBool (x : option Value) : bool * bool :=
  match x with
  | Some (VBool b) => (b, true)
  | _ => (false, false)
  end.

(** What a resolver hands back as its [interface{}]: one [Todo] or a
    [[]Todo]. *)
Inductive Reply : Type :=
| RTodo (t : Todo)
| RTodoList (l : list Todo).

(** The error kinds a resolver could report.  Every resolver of [main.go]
    returns the [nil] error, written [None] below. *)
Inductive Error : Type :=
| NotFound
| Empty
| InvalidArgument.

(** Run-time panics of the Go runtime that the resolvers can raise. *)
Inductive RuntimePanic : Type :=
| IndexOutOfRange (i : Z) (len : nat).

(** The result of running one resolver on the current [TodoList]. *)
Inductive Outcome : Type :=
| Returned (v : Reply) (err : option Error) (TodoList' : list Todo)
| Panicked (p : RuntimePanic).

(** [s[i]] with the bounds check of the Go runtime; [i] is a Go [int]. *)
Definition index (s : list Todo) (i : Z) : Todo + RuntimePanic :=
  if bool_decide (0 ≤ i)%Z && bool_decide (i < Z.of_nat (length s))%Z then
    match s !! Z.to_nat i with
    | Some t => inl t
    | None => inr (IndexOutOfRange i (length s))
    end
  else inr (IndexOutOfRange i (length s)).

(** ** The store after [init] *)

Definition todo1 : Todo := mkTodo "a" "A todo not to forget" false "".
Definition todo2 : Todo := mkTodo "b" "This is the most important" false "".
Definition todo3 : Todo := mkTodo "c" "Please do this or else" false "".

(** [func init()]: [TodoList] starts as the nil slice and receives the three
    seeded records. *)
Definition init : list Todo := [] ++ [todo1; todo2; todo3].

(** ** Mutations *)

(** The struct literal [newTodo] of [createTodo]. *)
Definition newTodo (text task : string) : Todo :=
  mkTodo "id0001" text true task.

(** [createTodo]'s [Resolve]. *)
Definition createTodo (args : gmap string Value) (TodoList : list Todo)
  : Outcome :=
  let '(text, _) := assertString (args !! "text") in
  let '(task, _) := assertString (args !! "task") in
  let TodoList := TodoList ++ [newTodo text task] in
  Returned (RTodoList TodoList) None TodoList.

(** [TodoList[i].Done = done]. *)
Definition setDone (t : Todo) (done : bool) : Todo :=
  mkTodo (ID t) (Text t) done (Task t).

(** The [for i := 0; i < len(TodoList); i++] loop of [updateTodo], entered
    at index [i] with [n] iterations left at most.  It gives back the slice
    and [affectedTodo]. *)
Fixpoint updateTodo_loop (n i : nat) (id : string) (done : bool)
    (TodoList : list Todo) (affectedTodo : Todo) : list Todo * Todo :=
  match n with
  | O => (TodoList, affectedTodo)
  | S n' =>
      match TodoList !! i with
      | None => (TodoList, affectedTodo)
      | Some t =>
          if String.eqb (ID t) id then
            let TodoList := <[i := setDone t done]> TodoList in
            match TodoList !! i with
            | Some u => (TodoList, u)
            | None => (TodoList, affectedTodo)
            end
          else updateTodo_loop n' (S i) id done TodoList affectedTodo
      end
  end.

(** [updateTodo]'s [Resolve]. *)
Definition updateTodo (args : gmap string Value) (TodoList : list Todo)
  : Outcome :=
  let '(done, _) := assertBool (args !! "done") in
  let '(id, _) := assertString (args !! "id") in
  let affectedTodo := zeroTodo in
  let '(TodoList, affectedTodo) :=
    updateTodo_loop (length TodoList) 0 id done TodoList affectedTodo in
  Returned (RTodo affectedTodo) None TodoList.

(** ** Queries *)

(** The [for _, todo := range TodoList] loop of [todo]: the first record
    whose [ID] is [idQuery], if the loop returns from inside. *)
Fixpoint todo_range (idQuery : string) (TodoList : list Todo) : option Todo :=
  match TodoList with
  | [] => None
  | todo :: rest =>
      if String.eqb (ID todo) idQuery then Some todo
      else todo_range idQuery rest
  end.

(** [todo]'s [Resolve]. *)
Definition todo (args : gmap string Value) (TodoList : list Todo) : Outcome :=
  let '(idQuery, isOK) := assertString (args !! "id") in
  if isOK then
    match todo_range idQuery TodoList with
    | Some found => Returned (RTodo found) None TodoList
    | None => Returned (RTodo zeroTodo) None TodoList
    end
  else Returned (RTodo zeroTodo) None TodoList.

(** [lastTodo]'s [Resolve]: [TodoList[len(TodoList)-1]]. *)
Definition lastTodo (TodoList : list Todo) : Outcome :=
  match index TodoList (Z.of_nat (length TodoList) - 1) with
  | inl t => Returned (RTodo t) None TodoList
  | inr p => Panicked p
  end.

(** [todoList]'s [Resolve]. *)
Definition todoList (TodoList : list Todo) : Outcome :=
  Returned (RTodoList TodoList) None TodoList.

(** ** Sequences of requests *)

(** One field of the root query or of the root mutation, with its
    arguments. *)
Inductive Request : Type :=
| Q_todo (args : gmap string Value)
| Q_lastTodo
| Q_todoList
| M_createTodo (args : gmap string Value)
| M_updateTodo (args : gmap string Value).

Definition resolve (r : Request) (TodoList : list Todo) : Outcome :=
  match r with
  | Q_todo args => todo args TodoList
  | Q_lastTodo => lastTodo TodoList
  | Q_todoList => todoList TodoList
  | M_createTodo args => createTodo args TodoList
  | M_updateTodo args => updateTodo args TodoList
  end.

(** The slice left by resolving the requests one after the other; [None]
    when a resolver panicked. *)
Fixpoint serve (reqs : list Request) (TodoList : list Todo)
  : option (list Todo) :=
  match reqs with
  | [] => Some TodoList
  | r :: reqs' =>
      match resolve r TodoList with
      | Returned _ _ TodoList' => serve reqs' TodoList'
      | Panicked _ => None
      end
  end.

(** The records the [createTodo] calls among [reqs] build, in call order. *)
Fixpoint created (reqs : list Request) : list Todo :=
  match reqs with
  | [] => []
  | M_createTodo args :: reqs' =>
      newTodo (assertString (args !! "text")).1
              (assertString (args !! "task")).1 :: created reqs'
  | _ :: reqs' => created reqs'
  end.

(** The fields of a record that no resolver writes after creation. *)
Definition fixedFields (t : Todo) : string * string * string :=
  (ID t, Text t, Task t).

(** The argument maps of the calls [createTodo(text: .., task: ..)],
    [updateTodo(id: .., done: ..)] and [todo(id: ..)]. *)
Definition createArgs (text task : string) : gmap string Value :=
  <["text" := VString text]> (<["task" := VString task]> ∅).

Definition updateArgs (id : string) (done : bool) : gmap string Value :=
  <["id" := VString id]> (<["done" := VBool done]> ∅).

Definition todoArgs (id : string) : gmap string Value :=
  <["id" := VString id]> ∅.

(** The fields of [rootQuery], as opposed to those of [rootMutation]. *)
Definition isQuery (r : Request) : bool :=
  match r with
  | Q_todo _ | Q_lastTodo | Q_todoList => true
  | M_createTodo _ | M_updateTodo _ => false
  end.

(** ** Random strings *)

(** [var letterRunes = []rune("abc...XYZ")].  Every rune of it is an ASCII
    letter, so a rune is an [ascii] here and [string(b)] has one byte for
    each rune of [b]. *)
Definition letterRunes : list ascii :=
  String.list_ascii_of_string "abcdefghijklmnopqrstuvwxyzABCDEFGHIJKLMNOPQRSTUVWXYZ".

(** The [for i := range b] loop of [RandStringRunes], entered at index [i]
    with [m] iterations left.  [Intn k n] stands for what the [k]-th call of
    [rand.Intn], made with bound [n], returns: the loop is the only caller,
    so the call of iteration [i] is the [i]-th.  [letterRunes[j]] carries
    the bounds check of the Go runtime. *)
Fixpoint RandStringRunes_loop (Intn : nat → nat → nat) (m i : nat)
    (b : list ascii) : list ascii + RuntimePanic :=
  match m with
  | O => inl b
  | S m' =>
      let j := Intn i (length letterRunes) in
      match letterRunes !! j with
      | Some c => RandStringRunes_loop Intn m' (S i) (<[i := c]> b)
      | None => inr (IndexOutOfRange (Z.of_nat j) (length letterRunes))
      end
  end.

(** The run-time panics [RandStringRunes] can raise: that of [make] on a
    length out of range, and that of an index out of range. *)
Inductive RandPanic : Type :=
| MakesliceLenOutOfRange
| RuneIndexPanic (p : RuntimePanic).

(** [func RandStringRunes(n int) string].  [n] is a Go [int].
    [make([]rune, n)] panics when [n] is negative or exceeds [maxLen], the
    largest length the runtime accepts for a slice of runes (its allocation
    limit divided by the four bytes of a rune, a constant of the platform);
    otherwise it is [n] zero runes.  Running out of memory is not
    modelled. *)
Definition RandStringRunes (maxLen : Z) (Intn : nat → nat → nat) (n : Z)
  : string + RandPanic :=
  if bool_decide (n < 0)%Z || bool_decide (maxLen < n)%Z then
    inr MakesliceLenOutOfRange
  else
    let b := replicate (Z.to_nat n) "000"%char in
    match RandStringRunes_loop Intn (length b) 0 b with
    | inl b => inl (String.string_of_list_ascii b)
    | inr p => inr (RuneIndexPanic p)
    end.

(** The rune the [i]-th iteration of [RandStringRunes] writes. *)
Definition drawnRune (Intn : nat → nat → nat) (i : nat) : ascii :=
  default "000"%char (letterRunes !! Intn i (length letterRunes)).

(** The store as the requests leave it: [cs] are the records created so
    far; the records created after the first of them form a suffix that is
    still as created. *)
Definition storeOf (cs l : list Todo) : Prop :=
  ∃ p, l = p ++ drop 1 cs
       ∧ fixedFields <$> p = fixedFields <$> (init ++ take 1 cs).

(** The store [updateTodo] leaves, read off structurally: the first record
    with the identifier has its [Done] flag written, the rest is kept.
    It is used to compare sequences of updates. *)
Fixpoint markFirst (id : string) (done : bool) (l : list Todo) : list Todo :=
  match l with
  | [] => []
  | t :: rest =>
      if String.eqb (ID t) id then setDone t done :: rest
      else t :: markFirst id done rest
  end.

(** ** Running the resolvers on concrete requests *)

Example createTodo_init :
  createTodo (createArgs "Buy milk" "") init
  = Returned (RTodoList (init ++ [mkTodo "id0001" "Buy milk" true ""])) None
             (init ++ [mkTodo "id0001" "Buy milk" true ""]).
Proof. vm_compute. reflexivity. Qed.

Example updateTodo_b :
  updateTodo (updateArgs "b" true) init
  = Returned (RTodo (setDone todo2 true)) None
             [todo1; setDone todo2 true; todo3].
Proof. vm_compute. reflexivity. Qed.

Example todo_b :
  todo (todoArgs "b") init = Returned (RTodo todo2) None init.
Proof. vm_compute. reflexivity. Qed.

Example lastTodo_init :
  lastTodo init = Returned (RTodo todo3) None init.
Proof. vm_compute. reflexivity. Qed.

Example RandStringRunes_5 :
  RandStringRunes (2 ^ 46) (λ k n, (7 * k + 3) `mod` n) 5 = inl "dkryF".
Proof. vm_compute. reflexivity. Qed.

Example RandStringRunes_negative :
  RandStringRunes (2 ^ 46) (λ k n, (7 * k + 3) `mod` n) (-1)
  = inr MakesliceLenOutOfRange.
Proof. vm_compute. reflexivity. Qed.

Example lastTodo_nil :
  lastTodo [] = Panicked (IndexOutOfRange (-1) 0).
Proof. vm_compute. reflexivity. Qed.

(** ** Auxiliary facts about the loops *)

Lemma createTodo_unfold (args : gmap string Value) (TodoList : list Todo) :
  let t := newTodo (assertString (args !! "text")).1
                   (assertString (args !! "task")).1 in
  createTodo args TodoList
  = Returned (RTodoList (TodoList ++ [t])) None (TodoList ++ [t]).
Proof.
  unfold createTodo.
  destruct (assertString (args !! "text")) as [text ok1].
  destruct (assertString (args !! "task")) as [task ok2].
  reflexivity.
Qed.

(** The range loop of [todo] skips a prefix without a match. *)
Lemma todo_range_skip (id : string) (l1 l2 : list Todo) :
  (∀ t, t ∈ l1 → ID t ≠ id) →
  todo_range id (l1 ++ l2) = todo_range id l2.
Proof.
  induction l1 as [|a l1 IH]; intros Hno; [reflexivity|].
  simpl. destruct (String.eqb_spec (ID a) id) as [Heq|Hne].
  - exfalso. apply (Hno a); [left | exact Heq].
  - apply IH. intros t Ht. apply Hno. by right.
Qed.

Lemma todo_range_none (id : string) (l : list Todo) :
  (∀ t, t ∈ l → ID t ≠ id) → todo_range id l = None.
Proof.
  intros Hno. rewrite <- (app_nil_r l). by rewrite todo_range_skip.
Qed.

Lemma todo_range_first (id : string) (l1 l2 : list Todo) (r : Todo) :
  (∀ t, t ∈ l1 → ID t ≠ id) → ID r = id →
  todo_range id (l1 ++ r :: l2) = Some r.
Proof.
  intros Hno Hr. rewrite todo_range_skip by exact Hno.
  simpl. rewrite Hr, String.eqb_refl. reflexivity.
Qed.

(** The index loop of [updateTodo], entered behind [pre]: without a match
    in the rest it runs to the end and writes nothing. *)
Lemma updateTodo_loop_miss (id : string) (done : bool) (aff : Todo)
    (post : list Todo) :
  ∀ (n : nat) (pre : list Todo),
    (∀ t, t ∈ post → ID t ≠ id) →
    updateTodo_loop n (length pre) id done (pre ++ post) aff
    = (pre ++ post, aff).
Proof.
  induction post as [|a post IH]; intros n pre Hno.
  - destruct n as [|n]; [reflexivity|]. simpl.
    rewrite lookup_ge_None_2; [reflexivity|]. rewrite length_app. simpl. lia.
  - destruct n as [|n]; [reflexivity|]. simpl.
    rewrite list_lookup_middle by reflexivity.
    destruct (String.eqb_spec (ID a) id) as [Heq|Hne].
    + exfalso. apply (Hno a); [left | exact Heq].
    + replace (S (length pre)) with (length (pre ++ [a]))
        by (rewrite length_app; simpl; lia).
      replace (pre ++ a :: post) with ((pre ++ [a]) ++ post)
        by (rewrite <- app_assoc; reflexivity).
      apply IH. intros t Ht. apply Hno. by right.
Qed.

(** With a first match [r] behind [l1], the loop writes [done] into that
    record only, reads it back into [affectedTodo] and breaks. *)
Lemma updateTodo_loop_hit (id : string) (done : bool) (aff : Todo)
    (l1 : list Todo) (r : Todo) (l2 : list Todo) :
  ∀ (n : nat) (pre : list Todo),
    (∀ t, t ∈ l1 → ID t ≠ id) → ID r = id →
    length (l1 ++ r :: l2) ≤ n →
    updateTodo_loop n (length pre) id done (pre ++ l1 ++ r :: l2) aff
    = (pre ++ l1 ++ setDone r done :: l2, setDone r done).
Proof.
  induction l1 as [|a l1 IH]; intros n pre Hno Hr Hn.
  - simpl in *. destruct n as [|n]; [lia|]. simpl.
    rewrite list_lookup_middle by reflexivity.
    rewrite Hr, String.eqb_refl.
    rewrite insert_app_r_alt by lia. rewrite Nat.sub_diag. simpl.
    rewrite list_lookup_middle by reflexivity. reflexivity.
  - simpl in Hn. destruct n as [|n]; [lia|]. simpl.
    rewrite list_lookup_middle by reflexivity.
    destruct (String.eqb_spec (ID a) id) as [Heq|Hne].
    + exfalso. apply (Hno a); [left | exact Heq].
    + replace (S (length pre)) with (length (pre ++ [a]))
        by (rewrite length_app; simpl; lia).
      replace (pre ++ a :: l1 ++ r :: l2) with ((pre ++ [a]) ++ l1 ++ r :: l2)
        by (rewrite <- app_assoc; reflexivity).
      replace (pre ++ a :: l1 ++ setDone r done :: l2)
        with ((pre ++ [a]) ++ l1 ++ setDone r done :: l2)
        by (rewrite <- app_assoc; reflexivity).
      apply IH; [|exact Hr|lia]. intros t Ht. apply Hno. by right.
Qed.

(** Whatever it finds, the loop keeps the length of the slice and the
    [ID], [Text] and [Task] of every record. *)
Lemma updateTodo_loop_fixedFields (id : string) (done : bool) :
  ∀ (n i : nat) (l : list Todo) (aff : Todo),
    fixedFields <$> (updateTodo_loop n i id done l aff).1 = fixedFields <$> l.
Proof.
  induction n as [|n IH]; intros i l aff; [reflexivity|].
  simpl. destruct (l !! i) as [t|] eqn:Hi; [|reflexivity].
  destruct (String.eqb (ID t) id).
  - assert (Hins : fixedFields <$> <[i:=setDone t done]> l = fixedFields <$> l).
    { rewrite list_fmap_insert. apply list_insert_id.
      rewrite list_lookup_fmap, Hi. reflexivity. }
    destruct (<[i:=setDone t done]> l !! i); exact Hins.
  - apply IH.
Qed.

Lemma updateTodo_unfold (args : gmap string Value) (TodoList : list Todo) :
  let done := (assertBool (args !! "done")).1 in
  let id := (assertString (args !! "id")).1 in
  let res := updateTodo_loop (length TodoList) 0 id done TodoList zeroTodo in
  updateTodo args TodoList = Returned (RTodo res.2) None res.1.
Proof.
  unfold updateTodo.
  destruct (assertBool (args !! "done")) as [done ok1].
  destruct (assertString (args !! "id")) as [id ok2]. simpl.
  destruct (updateTodo_loop (length TodoList) 0 id done TodoList zeroTodo).
  reflexivity.
Qed.

(** [lastTodo] on a slice that is not empty. *)
Lemma lastTodo_snoc (l : list Todo) (t : Todo) :
  lastTodo (l ++ [t]) = Returned (RTodo t) None (l ++ [t]).
Proof.
  unfold lastTodo, index. rewrite length_app. simpl.
  rewrite !bool_decide_eq_true_2 by lia. simpl.
  replace (Z.to_nat (Z.of_nat (length l + 1) - 1)) with (length l) by lia.
  rewrite list_lookup_middle by reflexivity. reflexivity.
Qed.

(** ** Auxiliary facts about sequences of requests *)

(** A resolver that returns leaves every earlier record in place, up to its
    [Done] flag, and appends the record of a [createTodo] call. *)
Lemma resolve_fixedFields (r : Request) (l : list Todo) :
  ∀ v err l', resolve r l = Returned v err l' →
    err = None ∧
    fixedFields <$> l' = (fixedFields <$> l) ++ (fixedFields <$> created [r]).
Proof.
  intros v err l' H. destruct r as [args| | |args|args]; simpl in H.
  - unfold todo in H. destruct (assertString (args !! "id")) as [idQuery isOK].
    destruct isOK; [destruct (todo_range idQuery l)|];
      inversion H; subst; simpl; by rewrite app_nil_r.
  - unfold lastTodo in H. destruct (index l _); inversion H; subst.
    simpl. by rewrite app_nil_r.
  - unfold todoList in H. inversion H; subst. simpl. by rewrite app_nil_r.
  - rewrite createTodo_unfold in H. inversion H; subst. split; [done|].
    simpl. by rewrite fmap_app.
  - rewrite updateTodo_unfold in H. inversion H; subst. split; [done|].
    simpl. rewrite app_nil_r. apply updateTodo_loop_fixedFields.
Qed.

(** On a slice that holds a record no resolver panics. *)
Lemma resolve_returns (r : Request) (l : list Todo) :
  l ≠ [] → ∃ v l', resolve r l = Returned v None l' ∧ l' ≠ [].
Proof.
  intros Hne.
  assert (Hlen : ∀ v err l', resolve r l = Returned v err l' → l' ≠ []).
  { intros v err l' H. apply resolve_fixedFields in H as [_ H].
    intros ->. simpl in H. symmetry in H.
    apply app_eq_nil in H as [H _]. apply fmap_nil_inv in H. done. }
  assert (Hret : ∃ v err l', resolve r l = Returned v err l').
  { destruct r as [args| | |args|args]; simpl.
    - unfold todo. destruct (assertString (args !! "id")) as [idQuery isOK].
      destruct isOK; [destruct (todo_range idQuery l)|]; eauto.
    - destruct l as [|a l] using rev_ind; [done|].
      rewrite lastTodo_snoc. eauto.
    - unfold todoList. eauto.
    - rewrite createTodo_unfold. eauto.
    - rewrite updateTodo_unfold. eauto. }
  destruct Hret as (v & err & l' & H).
  destruct (resolve_fixedFields _ _ _ _ _ H) as [-> _].
  exists v, l'. split; [exact H | by eapply Hlen].
Qed.

Lemma serve_fixedFields (reqs : list Request) :
  ∀ l l', serve reqs l = Some l' →
    fixedFields <$> l' = (fixedFields <$> l) ++ (fixedFields <$> created reqs).
Proof.
  induction reqs as [|r reqs IH]; intros l l' H; simpl in H.
  - inversion H; subst. simpl. by rewrite app_nil_r.
  - destruct (resolve r l) as [v err l1|p] eqn:Hr; [|done].
    apply IH in H. apply resolve_fixedFields in Hr as [_ Hr].
    rewrite H, Hr, <- app_assoc. f_equal. rewrite <- fmap_app. f_equal.
    destruct r; reflexivity.
Qed.

Lemma serve_returns (reqs : list Request) :
  ∀ l, l ≠ [] → ∃ l', serve reqs l = Some l' ∧ l' ≠ [].
Proof.
  induction reqs as [|r reqs IH]; intros l Hne; simpl.
  - eauto.
  - destruct (resolve_returns r l Hne) as (v & l1 & -> & Hne1). by apply IH.
Qed.

Lemma init_not_nil : init ≠ [].
Proof. discriminate. Qed.

(** ** Properties of [createTodo] *)

(** C1: two [createTodo] calls, whatever their arguments and the store
    they start from, append two records that carry the same identifier,
    the literal ["id0001"]; the identifiers of created records are not
    distinct. *)
Theorem createTodo_twice_same_ID (args1 args2 : gmap string Value)
    (l : list Todo) :
  ∃ t1 t2,
    serve [M_createTodo args1; M_createTodo args2] l = Some (l ++ [t1; t2])
    ∧ ID t1 = "id0001" ∧ ID t2 = "id0001" ∧ ID t1 = ID t2.
Proof.
  simpl. rewrite !createTodo_unfold. simpl.
  eexists _, _. rewrite <- app_assoc. simpl. split; [reflexivity|]. done.
Qed.

(** C2: for every text and task, the record [createTodo] stores has its
    [Done] field set to [true], not [false]. *)
Theorem createTodo_stores_Done_true (args : gmap string Value)
    (l : list Todo) :
  ∃ v t, createTodo args l = Returned v None (l ++ [t]) ∧ Done t = true.
Proof.
  rewrite createTodo_unfold. simpl. eexists _, _. split; reflexivity.
Qed.

(** C5, as stated, fails: [createTodo(text: "", task: "x")] on the seeded
    store returns the [nil] error, not [InvalidArgument], and the store
    has one more record afterwards. *)
Lemma createTodo_empty_text_counterexample :
  (∃ v l',
     createTodo (createArgs "" "x") init = Returned v None l'
     ∧ todoList l' = Returned (RTodoList (init ++ [newTodo "" "x"])) None l'
     ∧ length l' = S (length init))
  ∧ ¬ ∃ v l', createTodo (createArgs "" "x") init
              = Returned v (Some InvalidArgument) l'.
Proof.
  split.
  - eexists _, _. split; [vm_compute; reflexivity|]. split; reflexivity.
  - intros (v & l' & H). vm_compute in H. discriminate H.
Qed.

(** C5, amended: for every call to [createTodo] with an empty text the call
    returns no error and appends one record with empty text to the
    collection; a subsequent [todoList] shows it as the last record. *)
Theorem createTodo_empty_text_appends (args : gmap string Value)
    (l : list Todo) :
  args !! "text" = Some (VString "") →
  ∃ v t,
    createTodo args l = Returned v None (l ++ [t])
    ∧ Text t = ""
    ∧ todoList (l ++ [t]) = Returned (RTodoList (l ++ [t])) None (l ++ [t]).
Proof.
  intros Htext. rewrite createTodo_unfold, Htext. simpl.
  eexists _, _. split; [reflexivity|]. split; reflexivity.
Qed.

Lemma createTodo_empty_text_appends_witness :
  createArgs "" "x" !! "text" = Some (VString "")
  ∧ ∃ v t,
      createTodo (createArgs "" "x") init = Returned v None (init ++ [t])
      ∧ Text t = ""
      ∧ todoList (init ++ [t])
        = Returned (RTodoList (init ++ [t])) None (init ++ [t]).
Proof.
  split; [reflexivity|].
  apply (createTodo_empty_text_appends (createArgs "" "x") init).
  reflexivity.
Defined.

(** C8: what [createTodo] returns to the caller is the whole collection
    after the append, a [[]Todo] one longer than the store it started from,
    and not the single record just stored. *)
Theorem createTodo_returns_whole_TodoList (args : gmap string Value)
    (l : list Todo) :
  ∃ l', createTodo args l = Returned (RTodoList l') None l'
        ∧ length l' = S (length l).
Proof.
  rewrite createTodo_unfold. simpl. eexists. split; [reflexivity|].
  rewrite length_app. simpl. lia.
Qed.

(** ** Properties of [updateTodo] *)

(** C3, as stated, fails: [updateTodo(id: "nonexistent", done: true)] on
    the seeded store, where no record has that identifier, returns the
    [nil] error and not [NotFound]. *)
Lemma updateTodo_missing_counterexample :
  Forall (λ t, ID t ≠ "nonexistent") init
  ∧ updateTodo (updateArgs "nonexistent" true) init
    = Returned (RTodo zeroTodo) None init
  ∧ ¬ ∃ v l', updateTodo (updateArgs "nonexistent" true) init
              = Returned v (Some NotFound) l'.
Proof.
  split; [repeat constructor; discriminate|].
  assert (H : updateTodo (updateArgs "nonexistent" true) init
              = Returned (RTodo zeroTodo) None init)
    by (vm_compute; reflexivity).
  split; [exact H|]. intros (v & l' & H'). rewrite H in H'. discriminate.
Qed.

(** C3, amended: for every id that matches no record in the store,
    [updateTodo] returns the zero-valued record with no error and leaves
    the collection unchanged in size and contents. *)
Theorem updateTodo_missing_zero_unchanged (args : gmap string Value)
    (id : string) (l : list Todo) :
  args !! "id" = Some (VString id) →
  Forall (λ t, ID t ≠ id) l →
  updateTodo args l = Returned (RTodo zeroTodo) None l.
Proof.
  intros Hid Hno. rewrite updateTodo_unfold, Hid. simpl.
  rewrite (updateTodo_loop_miss id _ zeroTodo l (length l) []).
  - reflexivity.
  - by apply Forall_forall.
Qed.

Lemma updateTodo_missing_zero_unchanged_witness :
  updateArgs "nonexistent" true !! "id" = Some (VString "nonexistent")
  ∧ Forall (λ t, ID t ≠ "nonexistent") init
  ∧ updateTodo (updateArgs "nonexistent" true) init
    = Returned (RTodo zeroTodo) None init.
Proof.
  assert (Hno : Forall (λ t, ID t ≠ "nonexistent") init)
    by (repeat constructor; discriminate).
  split; [reflexivity|]. split; [exact Hno|].
  apply (updateTodo_missing_zero_unchanged
           (updateArgs "nonexistent" true) "nonexistent" init);
    [reflexivity | exact Hno].
Defined.

(** C10: when the store is [l1 ++ r :: l2], where [r] is the first record
    in insertion order whose [ID] equals the argument, [updateTodo] modifies
    [r] only, and in it the [Done] flag only, which becomes the [done]
    argument, or [false] when that argument is omitted or not a boolean:
    the records before [r], and every later record, among them those of
    [l2] that share the identifier, are left as they were.  The reply is
    the modified record. *)
Theorem updateTodo_first_match_only (args : gmap string Value)
    (id : string) (l1 : list Todo) (r : Todo) (l2 : list Todo) :
  args !! "id" = Some (VString id) →
  Forall (λ t, ID t ≠ id) l1 →
  ID r = id →
  let done := match args !! "done" with
              | Some (VBool b) => b
              | _ => false
              end in
  updateTodo args (l1 ++ r :: l2)
  = Returned (RTodo (mkTodo (ID r) (Text r) done (Task r))) None
             (l1 ++ mkTodo (ID r) (Text r) done (Task r) :: l2).
Proof.
  intros Hid Hno Hr done. rewrite updateTodo_unfold, Hid. cbv zeta.
  assert (Hdone : (assertBool (args !! "done")).1 = done).
  { subst done. destruct (args !! "done") as [[s|b|n]|]; reflexivity. }
  rewrite Hdone. simpl.
  pose proof (updateTodo_loop_hit id done zeroTodo l1 r l2
                (length (l1 ++ r :: l2)) []
                (proj1 (Forall_forall _ _) Hno) Hr (Nat.le_refl _)) as E.
  simpl in E. rewrite E. reflexivity.
Qed.

Lemma updateTodo_first_match_only_witness :
  let dup1 := mkTodo "id0001" "first" true "" in
  let dup2 := mkTodo "id0001" "second" true "" in
  updateArgs "id0001" false !! "id" = Some (VString "id0001")
  ∧ Forall (λ t, ID t ≠ "id0001") init
  ∧ ID dup1 = "id0001"
  ∧ updateTodo (updateArgs "id0001" false) (init ++ dup1 :: [dup2; dup1])
    = Returned (RTodo (mkTodo "id0001" "first" false "")) None
               (init ++ mkTodo "id0001" "first" false "" :: [dup2; dup1]).
Proof.
  intros dup1 dup2.
  assert (Hno : Forall (λ t, ID t ≠ "id0001") init)
    by (repeat constructor; discriminate).
  split; [reflexivity|]. split; [exact Hno|]. split; [reflexivity|].
  apply (updateTodo_first_match_only (updateArgs "id0001" false) "id0001"
           init dup1 [dup2; dup1]);
    [reflexivity | exact Hno | reflexivity].
Defined.

(** ** Properties of [todo] *)

(** C9: for every id that matches no record, [todo] returns the zero-valued
    record, with empty [ID], [Text] and [Task] and [Done] false, and no
    error; it returns the same when the id argument is omitted. *)
Theorem todo_missing_zero (args : gmap string Value) (l : list Todo) :
  (args !! "id" = None
   ∨ ∃ id, args !! "id" = Some (VString id) ∧ Forall (λ t, ID t ≠ id) l) →
  todo args l = Returned (RTodo (mkTodo "" "" false "")) None l.
Proof.
  intros [Hnone | (id & Hid & Hno)]; unfold todo.
  - rewrite Hnone. reflexivity.
  - rewrite Hid. simpl. rewrite todo_range_none; [reflexivity|].
    by apply Forall_forall.
Qed.

Lemma todo_missing_zero_witness :
  (todoArgs "zzz" !! "id" = Some (VString "zzz")
   ∧ Forall (λ t, ID t ≠ "zzz") init
   ∧ todo (todoArgs "zzz") init
     = Returned (RTodo (mkTodo "" "" false "")) None init)
  ∧ ((∅ : gmap string Value) !! "id" = None
     ∧ todo ∅ init = Returned (RTodo (mkTodo "" "" false "")) None init).
Proof.
  assert (Hno : Forall (λ t, ID t ≠ "zzz") init)
    by (repeat constructor; discriminate).
  split.
  - split; [reflexivity|]. split; [exact Hno|].
    apply (todo_missing_zero (todoArgs "zzz") init).
    right. exists "zzz". split; [reflexivity | exact Hno].
  - split; [reflexivity|].
    apply (todo_missing_zero ∅ init). left. reflexivity.
Defined.

(** For the first record in insertion order with a given identifier,
    [updateTodo] with [done: true] followed by [todo] returns that record
    with [Done] true and its [ID], [Text] and [Task] as they were. *)
Lemma updateTodo_then_todo_first (l1 : list Todo) (r : Todo)
    (l2 : list Todo) :
  Forall (λ t, ID t ≠ ID r) l1 →
  ∃ u l' u',
    updateTodo (updateArgs (ID r) true) (l1 ++ r :: l2)
    = Returned (RTodo u) None l'
    ∧ todo (todoArgs (ID r)) l' = Returned (RTodo u') None l'
    ∧ Done u' = true ∧ ID u' = ID r ∧ Text u' = Text r ∧ Task u' = Task r.
Proof.
  intros Hno. pose proof (proj1 (Forall_forall _ _) Hno) as Hno'.
  exists (setDone r true), (l1 ++ setDone r true :: l2), (setDone r true).
  split.
  - rewrite updateTodo_unfold. unfold updateArgs.
    rewrite lookup_insert_eq, lookup_insert_ne, lookup_insert_eq by done.
    simpl.
    rewrite (updateTodo_loop_hit (ID r) true zeroTodo l1 r l2 _ []);
      [reflexivity | exact Hno' | reflexivity | reflexivity].
  - split; [|done]. unfold todo, todoArgs. rewrite lookup_insert_eq. simpl.
    rewrite (todo_range_first (ID r) l1 l2 (setDone r true));
      [reflexivity | exact Hno' | reflexivity].
Qed.

(** C7: after [createTodo(text: "x")] and [createTodo(text: "y")] on the
    seeded store, the store holds two records with identifier ["id0001"].
    For the second of them, [updateTodo(id: "id0001", done: true)] followed
    by [todo(id: "id0001")] returns the first one: the text of the record
    returned is not the text that record had before the update. *)
Theorem updateTodo_then_todo_duplicate_ID :
  let l := init ++ [newTodo "x" ""; newTodo "y" ""] in
  let r := newTodo "y" "" in
  serve [M_createTodo (createArgs "x" ""); M_createTodo (createArgs "y" "")]
        init = Some l
  ∧ r ∈ l ∧ ID r = "id0001"
  ∧ ∃ u l' u',
      updateTodo (updateArgs "id0001" true) l = Returned (RTodo u) None l'
      ∧ todo (todoArgs "id0001") l' = Returned (RTodo u') None l'
      ∧ Text r = "y" ∧ Text u' = "x".
Proof.
  intros l r. split; [vm_compute; reflexivity|].
  split; [subst l r; set_solver|]. split; [reflexivity|].
  eexists _, _, _. split; [vm_compute; reflexivity|].
  split; [vm_compute; reflexivity|]. split; reflexivity.
Qed.

(** ** Properties of [lastTodo] and [todoList] *)

(** After any sequence of requests served from the seeded store the
    collection holds a record, and [lastTodo] returns the last record in
    insertion order with no error: the program never runs [lastTodo] on an
    empty collection. *)
Lemma lastTodo_after_requests (reqs : list Request) :
  ∃ l t,
    serve reqs init = Some l
    ∧ last l = Some t
    ∧ lastTodo l = Returned (RTodo t) None l.
Proof.
  destruct (serve_returns reqs init init_not_nil) as (l & Hl & Hne).
  destruct l as [|a l] using rev_ind; [done|].
  exists (l ++ [a]), a. split; [exact Hl|]. split.
  - apply last_snoc.
  - apply lastTodo_snoc.
Qed.

(** C6, as stated, fails: before any [createTodo] call [todoList] already
    returns the three records seeded by [init], so its length is not the
    number of [createTodo] calls. *)
Lemma todoList_init_counterexample :
  ∃ l,
    serve [] init = Some l
    ∧ todoList l = Returned (RTodoList l) None l
    ∧ length l = 3
    ∧ length l ≠ length (created []).
Proof. exists init. repeat split. discriminate. Qed.

(** C6, amended: after any sequence of requests served from the seeded
    store, [todoList] returns the whole collection, whose length is three,
    for the records seeded by [init], plus the number of [createTodo] calls
    made so far: the seeded records come first and the created records
    follow in the order their creates were called. *)
Theorem todoList_after_requests (reqs : list Request) :
  ∃ l,
    serve reqs init = Some l
    ∧ todoList l = Returned (RTodoList l) None l
    ∧ length l = 3 + length (created reqs)
    ∧ fixedFields <$> l
      = (fixedFields <$> init) ++ (fixedFields <$> created reqs).
Proof.
  destruct (serve_returns reqs init init_not_nil) as (l & Hl & _).
  exists l. split; [exact Hl|]. split; [reflexivity|].
  pose proof (serve_fixedFields reqs init l Hl) as Hf.
  split; [|exact Hf].
  apply (f_equal length) in Hf.
  rewrite length_app, !length_fmap in Hf. exact Hf.
Qed.

(** ** Further auxiliary facts *)

(** A store either has no record with a given identifier or splits at the
    first one. *)
Lemma first_match_split (id : string) (l : list Todo) :
  Forall (λ t, ID t ≠ id) l
  ∨ ∃ l1 r l2, l = l1 ++ r :: l2 ∧ Forall (λ t, ID t ≠ id) l1 ∧ ID r = id.
Proof.
  induction l as [|a l IH]; [left; constructor|].
  destruct (decide (ID a = id)) as [Ha|Ha].
  - right. exists [], a, l. repeat split; [constructor | exact Ha].
  - destruct IH as [IH | (l1 & r & l2 & -> & Hno & Hr)].
    + left. by constructor.
    + right. exists (a :: l1), r, l2. repeat split; [by constructor | exact Hr].
Qed.

(** The two ways [updateTodo] can end. *)
Lemma updateTodo_cases (args : gmap string Value) (l : list Todo) :
  let done := (assertBool (args !! "done")).1 in
  let id := (assertString (args !! "id")).1 in
  (Forall (λ t, ID t ≠ id) l
   ∧ updateTodo args l = Returned (RTodo zeroTodo) None l)
  ∨ (∃ l1 r l2,
       l = l1 ++ r :: l2 ∧ Forall (λ t, ID t ≠ id) l1 ∧ ID r = id
       ∧ updateTodo args l
         = Returned (RTodo (setDone r done)) None
                    (l1 ++ setDone r done :: l2)).
Proof.
  intros done id. rewrite updateTodo_unfold. cbv zeta. fold done id.
  destruct (first_match_split id l) as [Hno | (l1 & r & l2 & -> & Hno & Hr)].
  - left. split; [exact Hno|].
    pose proof (updateTodo_loop_miss id done zeroTodo l (length l) []
                  (proj1 (Forall_forall _ _) Hno)) as E.
    simpl in E. rewrite E. reflexivity.
  - right. exists l1, r, l2. repeat split; [exact Hno | exact Hr |].
    pose proof (updateTodo_loop_hit id done zeroTodo l1 r l2
                  (length (l1 ++ r :: l2)) []
                  (proj1 (Forall_forall _ _) Hno) Hr (Nat.le_refl _)) as E.
    simpl in E. rewrite E. reflexivity.
Qed.

Lemma updateTodo_missing_zero_unchanged_aux (args : gmap string Value)
    (id : string) (l : list Todo) :
  args !! "id" = Some (VString id) →
  Forall (λ t, ID t ≠ id) l →
  updateTodo args l = Returned (RTodo zeroTodo) None l.
Proof.
  intros Hid Hno. destruct (updateTodo_cases args l) as [[_ H] | H].
  - exact H.
  - destruct H as (l1 & r & l2 & -> & _ & Hr & _).
    rewrite Hid in Hr. simpl in Hr.
    apply Forall_app in Hno as [_ Hno]. by inversion Hno.
Qed.

Lemma updateTodo_first_match_aux (args : gmap string Value)
    (id : string) (done : bool) (l1 : list Todo) (r : Todo) (l2 : list Todo) :
  args !! "id" = Some (VString id) →
  args !! "done" = Some (VBool done) →
  Forall (λ t, ID t ≠ id) l1 →
  ID r = id →
  updateTodo args (l1 ++ r :: l2)
  = Returned (RTodo (setDone r done)) None (l1 ++ setDone r done :: l2).
Proof.
  intros Hid Hdone Hno Hr. rewrite updateTodo_unfold, Hid, Hdone. simpl.
  pose proof (updateTodo_loop_hit id done zeroTodo l1 r l2
                (length (l1 ++ r :: l2)) []
                (proj1 (Forall_forall _ _) Hno) Hr (Nat.le_refl _)) as E.
  simpl in E. rewrite E. reflexivity.
Qed.

Lemma updateArgs_id (id : string) (done : bool) :
  updateArgs id done !! "id" = Some (VString id).
Proof. unfold updateArgs. by rewrite lookup_insert_eq. Qed.

Lemma updateArgs_done (id : string) (done : bool) :
  updateArgs id done !! "done" = Some (VBool done).
Proof.
  unfold updateArgs. rewrite lookup_insert_ne by done.
  by rewrite lookup_insert_eq.
Qed.

Lemma todoArgs_id (id : string) : todoArgs id !! "id" = Some (VString id).
Proof. unfold todoArgs. by rewrite lookup_insert_eq. Qed.

Lemma todo_unfold_id (args : gmap string Value) (id : string)
    (l : list Todo) :
  args !! "id" = Some (VString id) →
  todo args l
  = Returned (RTodo (default zeroTodo (todo_range id l))) None l.
Proof.
  intros Hid. unfold todo. rewrite Hid. simpl.
  destruct (todo_range id l); reflexivity.
Qed.

(** Writing the [Done] flag of a record with another identifier does not
    change what the range loop of [todo] finds. *)
Lemma todo_range_setDone_other (id : string) (done : bool) (r : Todo)
    (l1 l2 : list Todo) :
  ID r ≠ id →
  todo_range id (l1 ++ setDone r done :: l2) = todo_range id (l1 ++ r :: l2).
Proof.
  intros Hr. induction l1 as [|a l1 IH]; simpl.
  - destruct (String.eqb_spec (ID r) id); [done | reflexivity].
  - destruct (String.eqb (ID a) id); [reflexivity | exact IH].
Qed.

Lemma RandStringRunes_loop_spec (Intn : nat → nat → nat) (post : list ascii) :
  (∀ k, Intn k (length letterRunes) < length letterRunes) →
  ∀ pre : list ascii,
    RandStringRunes_loop Intn (length post) (length pre) (pre ++ post)
    = inl (pre ++ (drawnRune Intn <$> seq (length pre) (length post))).
Proof.
  intros Hrange. induction post as [|c post IH]; intros pre.
  - reflexivity.
  - cbn [length RandStringRunes_loop seq fmap list_fmap].
    destruct (lookup_lt_is_Some_2 letterRunes _ (Hrange (length pre)))
      as [x Hx].
    rewrite Hx. rewrite insert_app_r_alt by lia. rewrite Nat.sub_diag.
    cbn [insert list_insert].
    specialize (IH (pre ++ [x])).
    rewrite length_app, <- app_assoc in IH. cbn [length app] in IH.
    replace (length pre + 1) with (S (length pre)) in IH by lia.
    rewrite IH. unfold drawnRune at 2. rewrite Hx, <- app_assoc. reflexivity.
Qed.

Lemma length_string_of_list_ascii (b : list ascii) :
  String.length (String.string_of_list_ascii b) = length b.
Proof. induction b as [|c b IH]; simpl; [reflexivity | by rewrite IH]. Qed.

Lemma createArgs_text (text task : string) :
  createArgs text task !! "text" = Some (VString text).
Proof. unfold createArgs. by rewrite lookup_insert_eq. Qed.

Lemma createArgs_task (text task : string) :
  createArgs text task !! "task" = Some (VString task).
Proof.
  unfold createArgs. rewrite lookup_insert_ne by done.
  by rewrite lookup_insert_eq.
Qed.

(** A query on a store that holds a record returns and leaves it alone. *)
Lemma queries_leave_TodoList_aux (r : Request) (l : list Todo) :
  isQuery r = true → l ≠ [] → ∃ v, resolve r l = Returned v None l.
Proof.
  intros Hq Hne. destruct r as [args| | |args|args]; try discriminate Hq; simpl.
  - unfold todo. destruct (assertString (args !! "id")) as [idQuery isOK].
    destruct isOK; [destruct (todo_range idQuery l)|]; eauto.
  - destruct l as [|a l _] using rev_ind; [done|].
    rewrite lastTodo_snoc. eauto.
  - unfold todoList. eauto.
Qed.

(** ** Properties of [RandStringRunes] *)

(** X1: [RandStringRunes(n)] panics in [make], with a length out of range,
    when [n] is negative or exceeds the largest length [make] accepts for a
    slice of runes.  For every other [n], when every call of [rand.Intn]
    answers below its bound, it does not panic and returns a string of
    exactly [n] characters, each one a rune of [letterRunes]: the [i]-th
    character is the letter at the index the [i]-th draw gave. *)
Theorem RandStringRunes_letters (maxLen : Z) (Intn : nat → nat → nat)
    (n : Z) :
  (∀ k, Intn k (length letterRunes) < length letterRunes) →
  ((n < 0 ∨ maxLen < n)%Z →
   RandStringRunes maxLen Intn n = inr MakesliceLenOutOfRange)
  ∧ ((0 ≤ n ≤ maxLen)%Z →
     ∃ s,
       RandStringRunes maxLen Intn n = inl s
       ∧ Z.of_nat (String.length s) = n
       ∧ Forall (λ c, c ∈ letterRunes) (String.list_ascii_of_string s)
       ∧ s = String.string_of_list_ascii
               (drawnRune Intn <$> seq 0 (Z.to_nat n))).
Proof.
  intros Hrange. unfold RandStringRunes. split.
  - intros Hn.
    destruct (bool_decide_reflect (n < 0)%Z);
      destruct (bool_decide_reflect (maxLen < n)%Z);
      try reflexivity. lia.
  - intros Hn.
    rewrite (bool_decide_eq_false_2 (n < 0)%Z) by lia.
    rewrite (bool_decide_eq_false_2 (maxLen < n)%Z) by lia.
    cbn [orb]. cbv zeta.
    pose proof (RandStringRunes_loop_spec Intn
                  (replicate (Z.to_nat n) "000"%char) Hrange []) as E.
    simpl in E. rewrite E. rewrite length_replicate.
    eexists. split; [reflexivity|]. split; [|split; [|reflexivity]].
    + rewrite length_string_of_list_ascii, length_fmap, length_seq. lia.
    + rewrite String.list_ascii_of_string_of_list_ascii.
      apply Forall_fmap, Forall_forall. intros i _. simpl. unfold drawnRune.
      destruct (lookup_lt_is_Some_2 letterRunes _ (Hrange i)) as [x Hx].
      rewrite Hx. simpl. by eapply list_elem_of_lookup_2.
Qed.

Lemma RandStringRunes_letters_witness :
  let Intn := λ k n : nat, (7 * k + 3) `mod` n in
  (∀ k, Intn k (length letterRunes) < length letterRunes)
  ∧ ((-1 < 0 ∨ 2 ^ 46 < -1)%Z
     ∧ RandStringRunes (2 ^ 46) Intn (-1) = inr MakesliceLenOutOfRange)
  ∧ ((0 ≤ 5 ≤ 2 ^ 46)%Z
     ∧ ∃ s,
         RandStringRunes (2 ^ 46) Intn 5 = inl s
         ∧ Z.of_nat (String.length s) = 5%Z
         ∧ Forall (λ c, c ∈ letterRunes) (String.list_ascii_of_string s)
         ∧ s = String.string_of_list_ascii
                 (drawnRune Intn <$> seq 0 (Z.to_nat 5))).
Proof.
  intros Intn.
  assert (Hrange : ∀ k, Intn k (length letterRunes) < length letterRunes)
    by (intros k; apply Nat.mod_upper_bound; discriminate).
  assert (Hneg : (-1 < 0 ∨ 2 ^ 46 < -1)%Z) by (left; reflexivity).
  assert (Hin : (0 ≤ 5 ≤ 2 ^ 46)%Z) by (split; discriminate).
  split; [exact Hrange|]. split.
  - split; [exact Hneg|].
    apply (proj1 (RandStringRunes_letters (2 ^ 46) Intn (-1) Hrange) Hneg).
  - split; [exact Hin|].
    apply (proj2 (RandStringRunes_letters (2 ^ 46) Intn 5 Hrange) Hin).
Defined.

(** ** Further properties of the queries *)

(** X2: [lastTodo] panics exactly when the collection is empty. *)
Theorem lastTodo_panics_iff_empty (l : list Todo) :
  (∃ p, lastTodo l = Panicked p) ↔ l = [].
Proof.
  split.
  - intros [p Hp]. destruct l as [|a l _] using rev_ind; [reflexivity|].
    rewrite lastTodo_snoc in Hp. discriminate Hp.
  - intros ->. eexists. vm_compute. reflexivity.
Qed.

(** X3: right after [createTodo], on any store, the empty one included,
    [lastTodo] returns the record that call built, with no error. *)
Theorem lastTodo_after_createTodo (args : gmap string Value)
    (l : list Todo) :
  ∃ v l',
    createTodo args l = Returned v None l'
    ∧ lastTodo l'
      = Returned (RTodo (mkTodo "id0001" (assertString (args !! "text")).1
                                true (assertString (args !! "task")).1))
                 None l'.
Proof.
  rewrite createTodo_unfold. cbv zeta. eexists _, _.
  split; [reflexivity|]. apply lastTodo_snoc.
Qed.

(** X4: when some record has the identifier asked for, [todo] returns the
    first such record in insertion order, as stored, with no error, and
    leaves the collection as it was. *)
Theorem todo_first_match (args : gmap string Value) (id : string)
    (l1 : list Todo) (r : Todo) (l2 : list Todo) :
  args !! "id" = Some (VString id) →
  Forall (λ t, ID t ≠ id) l1 →
  ID r = id →
  todo args (l1 ++ r :: l2) = Returned (RTodo r) None (l1 ++ r :: l2).
Proof.
  intros Hid Hno Hr. rewrite (todo_unfold_id args id) by exact Hid.
  rewrite (todo_range_first id l1 l2 r);
    [reflexivity | by apply Forall_forall | exact Hr].
Qed.

Lemma todo_first_match_witness :
  let dup1 := mkTodo "id0001" "first" true "" in
  let dup2 := mkTodo "id0001" "second" false "" in
  todoArgs "id0001" !! "id" = Some (VString "id0001")
  ∧ Forall (λ t, ID t ≠ "id0001") init
  ∧ ID dup1 = "id0001"
  ∧ todo (todoArgs "id0001") (init ++ dup1 :: [dup2])
    = Returned (RTodo dup1) None (init ++ dup1 :: [dup2]).
Proof.
  intros dup1 dup2.
  assert (Hno : Forall (λ t, ID t ≠ "id0001") init)
    by (repeat constructor; discriminate).
  split; [reflexivity|]. split; [exact Hno|]. split; [reflexivity|].
  apply (todo_first_match (todoArgs "id0001") "id0001" init dup1 [dup2]);
    [reflexivity | exact Hno | reflexivity].
Defined.

(** X5: on a store where no record has the identifier ["id0001"],
    [createTodo(text, task)] followed by [todo(id: "id0001")] returns the
    record just created, with the given text and task. *)
Theorem todo_after_first_createTodo (text task : string) (l : list Todo) :
  Forall (λ t, ID t ≠ "id0001") l →
  ∃ v l',
    createTodo (createArgs text task) l = Returned v None l'
    ∧ todo (todoArgs "id0001") l'
      = Returned (RTodo (mkTodo "id0001" text true task)) None l'.
Proof.
  intros Hno. rewrite createTodo_unfold. cbv zeta.
  rewrite createArgs_text, createArgs_task. simpl.
  eexists _, _. split; [reflexivity|].
  apply (todo_first_match (todoArgs "id0001") "id0001" l _ []);
    [apply todoArgs_id | exact Hno | reflexivity].
Qed.

Lemma todo_after_first_createTodo_witness :
  Forall (λ t, ID t ≠ "id0001") init
  ∧ ∃ v l',
      createTodo (createArgs "Buy milk" "home") init = Returned v None l'
      ∧ todo (todoArgs "id0001") l'
        = Returned (RTodo (mkTodo "id0001" "Buy milk" true "home")) None l'.
Proof.
  assert (Hno : Forall (λ t, ID t ≠ "id0001") init)
    by (repeat constructor; discriminate).
  split; [exact Hno|].
  apply (todo_after_first_createTodo "Buy milk" "home" init Hno).
Defined.

(** X6: [createTodo] does not change what [todo] finds for an identifier
    the store already holds: the first record with that identifier is still
    the one returned.  For ["id0001"] this means that a record created when
    an earlier created record exists is not the one [todo] returns. *)
Theorem todo_unchanged_by_createTodo (args qargs : gmap string Value)
    (id : string) (l1 : list Todo) (r : Todo) (l2 : list Todo) :
  qargs !! "id" = Some (VString id) →
  Forall (λ t, ID t ≠ id) l1 →
  ID r = id →
  ∃ v l',
    createTodo args (l1 ++ r :: l2) = Returned v None l'
    ∧ todo qargs l' = Returned (RTodo r) None l'.
Proof.
  intros Hid Hno Hr. rewrite createTodo_unfold. cbv zeta.
  eexists _, _. split; [reflexivity|].
  rewrite <- app_assoc. simpl.
  by apply (todo_first_match qargs id l1 r).
Qed.

Lemma todo_unchanged_by_createTodo_witness :
  let first := mkTodo "id0001" "x" true "" in
  todoArgs "id0001" !! "id" = Some (VString "id0001")
  ∧ Forall (λ t, ID t ≠ "id0001") init
  ∧ ID first = "id0001"
  ∧ ∃ v l',
      createTodo (createArgs "y" "") (init ++ first :: []) = Returned v None l'
      ∧ todo (todoArgs "id0001") l' = Returned (RTodo first) None l'.
Proof.
  intros first.
  assert (Hno : Forall (λ t, ID t ≠ "id0001") init)
    by (repeat constructor; discriminate).
  split; [reflexivity|]. split; [exact Hno|]. split; [reflexivity|].
  apply (todo_unchanged_by_createTodo (createArgs "y" "") (todoArgs "id0001")
           "id0001" init first []);
    [reflexivity | exact Hno | reflexivity].
Defined.

(** X7: a field of the root query never changes the collection and never
    reports an error: it returns with the collection as it was, except for
    [lastTodo] on the empty collection, which panics. *)
Theorem queries_leave_TodoList (r : Request) (l : list Todo) :
  isQuery r = true →
  (∃ v, resolve r l = Returned v None l)
  ∨ (r = Q_lastTodo ∧ l = [] ∧ ∃ p, resolve r l = Panicked p).
Proof.
  intros Hq. destruct r as [args| | |args|args]; try discriminate Hq; simpl.
  - left. unfold todo. destruct (assertString (args !! "id")) as [idQuery isOK].
    destruct isOK; [destruct (todo_range idQuery l)|]; eauto.
  - destruct l as [|a l _] using rev_ind.
    + right. repeat split. eexists. vm_compute. reflexivity.
    + left. rewrite lastTodo_snoc. eauto.
  - left. unfold todoList. eauto.
Qed.

Lemma queries_leave_TodoList_witness :
  isQuery Q_lastTodo = true
  ∧ ((∃ v, resolve Q_lastTodo init = Returned v None init)
     ∨ (Q_lastTodo = Q_lastTodo ∧ init = []
        ∧ ∃ p, resolve Q_lastTodo init = Panicked p)).
Proof.
  split; [reflexivity|].
  apply (queries_leave_TodoList Q_lastTodo init). reflexivity.
Defined.

(** ** Further properties of [updateTodo] *)

(** X8: whatever its arguments and whether or not it finds a record,
    [updateTodo] returns no error, keeps the number of records and keeps
    the [ID], [Text] and [Task] of every record, position by position. *)
Theorem updateTodo_keeps_fixedFields (args : gmap string Value)
    (l : list Todo) :
  ∃ v l',
    updateTodo args l = Returned v None l'
    ∧ length l' = length l
    ∧ fixedFields <$> l' = fixedFields <$> l.
Proof.
  rewrite updateTodo_unfold. cbv zeta. eexists _, _.
  split; [reflexivity|].
  pose proof (updateTodo_loop_fixedFields
                (assertString (args !! "id")).1
                (assertBool (args !! "done")).1
                (length l) 0 l zeroTodo) as Hf.
  split; [|exact Hf].
  apply (f_equal length) in Hf. by rewrite !length_fmap in Hf.
Qed.

(** X9: the last write wins: [updateTodo(id, d1)] followed by
    [updateTodo(id, d2)] leaves the same collection and gives the same
    reply as [updateTodo(id, d2)] alone; with [d1 = d2], repeating an
    update changes nothing. *)
Theorem updateTodo_last_write_wins (id : string) (d1 d2 : bool)
    (l : list Todo) :
  ∃ v1 l1 v2 l2,
    updateTodo (updateArgs id d1) l = Returned v1 None l1
    ∧ updateTodo (updateArgs id d2) l1 = Returned v2 None l2
    ∧ updateTodo (updateArgs id d2) l = Returned v2 None l2.
Proof.
  destruct (first_match_split id l) as [Hno | (k1 & r & k2 & -> & Hno & Hr)].
  - exists (RTodo zeroTodo), l, (RTodo zeroTodo), l.
    repeat split;
      apply (updateTodo_missing_zero_unchanged_aux _ id);
      auto using updateArgs_id.
  - exists (RTodo (setDone r d1)), (k1 ++ setDone r d1 :: k2),
           (RTodo (setDone r d2)), (k1 ++ setDone r d2 :: k2).
    repeat split.
    + apply (updateTodo_first_match_aux _ id);
        auto using updateArgs_id, updateArgs_done.
    + apply (updateTodo_first_match_aux _ id d2 k1 (setDone r d1) k2);
        auto using updateArgs_id, updateArgs_done.
    + apply (updateTodo_first_match_aux _ id);
        auto using updateArgs_id, updateArgs_done.
Qed.

(** X10: when the [done] argument is omitted, [updateTodo] writes [false]:
    the first record with the identifier is marked not done. *)
Theorem updateTodo_done_omitted (args : gmap string Value) (id : string)
    (l1 : list Todo) (r : Todo) (l2 : list Todo) :
  args !! "id" = Some (VString id) →
  args !! "done" = None →
  Forall (λ t, ID t ≠ id) l1 →
  ID r = id →
  updateTodo args (l1 ++ r :: l2)
  = Returned (RTodo (mkTodo (ID r) (Text r) false (Task r))) None
             (l1 ++ mkTodo (ID r) (Text r) false (Task r) :: l2).
Proof.
  intros Hid Hdone Hno Hr. rewrite updateTodo_unfold, Hid, Hdone. simpl.
  pose proof (updateTodo_loop_hit id false zeroTodo l1 r l2
                (length (l1 ++ r :: l2)) []
                (proj1 (Forall_forall _ _) Hno) Hr (Nat.le_refl _)) as E.
  simpl in E. rewrite E. reflexivity.
Qed.

Lemma updateTodo_done_omitted_witness :
  let r := mkTodo "id0001" "Buy milk" true "" in
  todoArgs "id0001" !! "id" = Some (VString "id0001")
  ∧ todoArgs "id0001" !! "done" = None
  ∧ Forall (λ t, ID t ≠ "id0001") init
  ∧ ID r = "id0001"
  ∧ updateTodo (todoArgs "id0001") (init ++ r :: [])
    = Returned (RTodo (mkTodo (ID r) (Text r) false (Task r))) None
               (init ++ mkTodo (ID r) (Text r) false (Task r) :: []).
Proof.
  intros r.
  assert (Hno : Forall (λ t, ID t ≠ "id0001") init)
    by (repeat constructor; discriminate).
  split; [reflexivity|]. split; [reflexivity|]. split; [exact Hno|].
  split; [reflexivity|].
  apply (updateTodo_done_omitted (todoArgs "id0001") "id0001" init r []);
    [reflexivity | reflexivity | exact Hno | reflexivity].
Defined.

(** X11: [updateTodo] on one identifier does not change what [todo]
    returns for another identifier. *)
Theorem todo_unchanged_by_other_updateTodo (id id' : string) (done : bool)
    (l : list Todo) :
  id ≠ id' →
  ∃ v l' w,
    updateTodo (updateArgs id done) l = Returned v None l'
    ∧ todo (todoArgs id') l = Returned (RTodo w) None l
    ∧ todo (todoArgs id') l' = Returned (RTodo w) None l'.
Proof.
  intros Hne.
  destruct (first_match_split id l) as [Hno | (k1 & r & k2 & -> & Hno & Hr)].
  - exists (RTodo zeroTodo), l, (default zeroTodo (todo_range id' l)).
    split; [|split]; [|by apply todo_unfold_id, todoArgs_id ..].
    apply (updateTodo_missing_zero_unchanged_aux _ id);
      auto using updateArgs_id.
  - exists (RTodo (setDone r done)), (k1 ++ setDone r done :: k2),
           (default zeroTodo (todo_range id' (k1 ++ r :: k2))).
    split; [|split].
    + apply (updateTodo_first_match_aux _ id);
        auto using updateArgs_id, updateArgs_done.
    + by apply todo_unfold_id, todoArgs_id.
    + rewrite (todo_unfold_id _ id') by apply todoArgs_id.
      rewrite todo_range_setDone_other; [reflexivity | congruence].
Qed.

Lemma todo_unchanged_by_other_updateTodo_witness :
  "a" ≠ "b"
  ∧ ∃ v l' w,
      updateTodo (updateArgs "a" true) init = Returned v None l'
      ∧ todo (todoArgs "b") init = Returned (RTodo w) None init
      ∧ todo (todoArgs "b") l' = Returned (RTodo w) None l'.
Proof.
  assert (Hne : "a" ≠ "b") by discriminate.
  split; [exact Hne|].
  apply (todo_unchanged_by_other_updateTodo "a" "b" true init Hne).
Defined.


(** ** Further properties of [createTodo] *)

(** X13: when the [text] argument is missing or is not a string,
    [createTodo] still returns no error and stores a record whose text is
    the empty string; the same holds for [task]. *)
Theorem createTodo_missing_text_or_task (args : gmap string Value)
    (l : list Todo) :
  (∀ s, args !! "text" ≠ Some (VString s)) →
  (∀ s, args !! "task" ≠ Some (VString s)) →
  ∃ v, createTodo args l
       = Returned v None (l ++ [mkTodo "id0001" "" true ""]).
Proof.
  intros Htext Htask. rewrite createTodo_unfold. cbv zeta.
  assert (E : ∀ x : option Value,
             (∀ s, x ≠ Some (VString s)) → (assertString x).1 = "").
  { intros [[s|b|n]|] H; try reflexivity. by destruct (H s). }
  rewrite (E _ Htext), (E _ Htask). eexists. reflexivity.
Qed.

Lemma createTodo_missing_text_or_task_witness :
  let args : gmap string Value := <["text" := VInt 7]> ∅ in
  (∀ s, args !! "text" ≠ Some (VString s))
  ∧ (∀ s, args !! "task" ≠ Some (VString s))
  ∧ ∃ v, createTodo args init
         = Returned v None (init ++ [mkTodo "id0001" "" true ""]).
Proof.
  intros args.
  assert (H1 : ∀ s, args !! "text" ≠ Some (VString s)) by (intros s; discriminate).
  assert (H2 : ∀ s, args !! "task" ≠ Some (VString s)) by (intros s; discriminate).
  split; [exact H1|]. split; [exact H2|].
  apply (createTodo_missing_text_or_task args init H1 H2).
Defined.

(** ** Invariants of the store over sequences of requests *)

(** [updateTodo] does not reach into a suffix of the store all of whose
    identifiers already occur before it. *)
Lemma updateTodo_shadowed_suffix (args : gmap string Value)
    (p q : list Todo) :
  (∀ t, t ∈ q → ∃ u, u ∈ p ∧ ID u = ID t) →
  ∃ v p',
    updateTodo args (p ++ q) = Returned v None (p' ++ q)
    ∧ fixedFields <$> p' = fixedFields <$> p.
Proof.
  intros Hq.
  destruct (updateTodo_cases args (p ++ q))
    as [[_ H] | (l1 & r & l2 & Hl & Hno & Hr & H)].
  - eauto.
  - set (id := (assertString (args !! "id")).1) in *.
    set (done := (assertBool (args !! "done")).1) in *.
    assert (Hout : ∀ k, r ∈ q → l1 = p ++ k → False).
    { intros k Hrq Hl1. destruct (Hq r Hrq) as (u & Hu & Hid).
      rewrite Forall_forall in Hno. apply (Hno u); [|congruence].
      rewrite Hl1. apply elem_of_app. by left. }
    apply app_eq_inv in Hl as [(k & Hp & Hk) | (k & Hl1 & Hk)].
    + destruct k as [|a k].
      * exfalso. simpl in Hk. rewrite app_nil_r in Hp.
        apply (Hout []); [rewrite <- Hk; by left | by rewrite app_nil_r].
      * simpl in Hk. inversion Hk; subst a l2. subst p.
        exists (RTodo (setDone r done)), (l1 ++ setDone r done :: k).
        split; [|rewrite !fmap_app; reflexivity].
        rewrite H, <- !app_assoc. reflexivity.
    + exfalso. apply (Hout k); [|exact Hl1].
      rewrite Hk. apply elem_of_app. right. by left.
Qed.

Lemma storeOf_serve (reqs : list Request) :
  ∀ cs l,
    Forall (λ t, ID t = "id0001") cs →
    storeOf cs l →
    ∃ l', serve reqs l = Some l' ∧ storeOf (cs ++ created reqs) l'.
Proof.
  induction reqs as [|r reqs IH]; intros cs l Hcs Hst.
  - exists l. simpl. by rewrite app_nil_r.
  - assert (Hne : l ≠ []).
    { destruct Hst as (p & -> & Hp). intros Hnil.
      apply app_eq_nil in Hnil as [-> _]. discriminate Hp. }
    destruct (isQuery r) eqn:Hq.
    + destruct (queries_leave_TodoList_aux r l Hq Hne) as [v Hv].
      replace (created (r :: reqs)) with (created reqs)
        by (destruct r; done).
      cbn [serve]. rewrite Hv. by apply IH.
    + destruct r as [args| | |args|args]; try discriminate Hq; simpl.
      * rewrite createTodo_unfold. cbv zeta.
        set (t := newTodo _ _).
        replace (cs ++ t :: created reqs) with ((cs ++ [t]) ++ created reqs)
          by (by rewrite <- app_assoc).
        apply IH.
        { apply Forall_app. split; [exact Hcs | by repeat constructor]. }
        destruct Hst as (p & -> & Hp). destruct cs as [|c cs].
        -- exists (p ++ [t]). simpl in *. rewrite !app_nil_r.
           split; [reflexivity|]. rewrite fmap_app, Hp. reflexivity.
        -- exists p. cbn [drop take app] in *. rewrite !drop_0 in *.
           rewrite <- app_assoc. split; [reflexivity | exact Hp].
      * destruct Hst as (p & -> & Hp).
        destruct (updateTodo_shadowed_suffix args p (drop 1 cs))
          as (v & p' & Hu & Hp').
        { intros t Ht. destruct cs as [|c cs]; [by apply elem_of_nil in Ht|].
          simpl in Ht. rewrite drop_0 in Ht.
          assert (Hc : fixedFields c ∈ fixedFields <$> p).
          { rewrite Hp. apply list_elem_of_fmap_2.
            apply elem_of_app. right. by left. }
          apply list_elem_of_fmap_1 in Hc as (u & Hu & Hin).
          exists u. split; [exact Hin|].
          inversion Hcs as [|? ? Hidc Hcs']; subst.
          rewrite Forall_forall in Hcs'. rewrite (Hcs' t Ht), <- Hidc.
          unfold fixedFields in Hu. congruence. }
        rewrite Hu. apply IH; [exact Hcs|].
        exists p'. split; [reflexivity | congruence].
Qed.

Lemma created_ID (reqs : list Request) :
  Forall (λ t, ID t = "id0001") (created reqs).
Proof.
  induction reqs as [|r reqs IH]; [constructor|].
  destruct r; simpl; try exact IH. by constructor.
Qed.

(** The identifiers a store served from the seeded one can hold. *)
Lemma served_IDs (reqs : list Request) :
  ∃ l, serve reqs init = Some l
       ∧ Forall (λ t, ID t ∈ ["a"; "b"; "c"; "id0001"]) l.
Proof.
  destruct (serve_returns reqs init init_not_nil) as (l & Hl & _).
  exists l. split; [exact Hl|].
  pose proof (serve_fixedFields reqs init l Hl) as Hf.
  apply Forall_forall. intros t Ht.
  apply (list_elem_of_fmap_2 fixedFields) in Ht. rewrite Hf in Ht.
  apply elem_of_app in Ht as [Ht|Ht];
    apply list_elem_of_fmap_1 in Ht as (u & Hu & Hin);
    assert (HID : ID t = ID u) by (unfold fixedFields in Hu; congruence);
    rewrite HID.
  - unfold init in Hin. simpl in Hin.
    repeat (apply elem_of_cons in Hin as [-> | Hin]);
      [repeat constructor .. | by apply elem_of_nil in Hin].
  - pose proof (created_ID reqs) as Hc. rewrite Forall_forall in Hc.
    rewrite (Hc u Hin). repeat constructor.
Qed.

(** X14: serving requests never removes or reorders a record and never
    rewrites an [ID], [Text] or [Task]: from any store, when no resolver
    panics, the store afterwards has the old records' [ID], [Text] and
    [Task] in their old positions, followed by those of the records the
    [createTodo] calls built, in call order, and its length grew by the
    number of those calls. *)
Theorem serve_append_only (reqs : list Request) (l l' : list Todo) :
  serve reqs l = Some l' →
  length l' = length l + length (created reqs)
  ∧ fixedFields <$> l'
    = (fixedFields <$> l) ++ (fixedFields <$> created reqs).
Proof.
  intros H. pose proof (serve_fixedFields reqs l l' H) as Hf.
  split; [|exact Hf].
  apply (f_equal length) in Hf.
  by rewrite length_app, !length_fmap in Hf.
Qed.

Lemma serve_append_only_witness :
  let reqs := [M_updateTodo (updateArgs "b" true);
               M_createTodo (createArgs "Buy milk" ""); Q_lastTodo] in
  let l' := [todo1; setDone todo2 true; todo3; newTodo "Buy milk" ""] in
  serve reqs init = Some l'
  ∧ length l' = length init + length (created reqs)
  ∧ fixedFields <$> l'
    = (fixedFields <$> init) ++ (fixedFields <$> created reqs).
Proof.
  intros reqs l'.
  assert (H : serve reqs init = Some l') by (vm_compute; reflexivity).
  split; [exact H|]. apply (serve_append_only reqs init l' H).
Defined.

(** X15: after any sequence of requests served from the seeded store, the
    records from index 4 on, that is all created records but the first, are
    exactly as [createTodo] built them: no [updateTodo] ever reaches them,
    since all created records share one identifier. *)
Theorem later_created_never_updated (reqs : list Request) :
  ∃ l, serve reqs init = Some l ∧ drop 4 l = drop 1 (created reqs).
Proof.
  destruct (storeOf_serve reqs [] init) as (l & Hl & p & -> & Hp).
  - constructor.
  - exists init. split; [by rewrite app_nil_r | reflexivity].
  - eexists. split; [exact Hl|]. simpl in Hp.
    apply (f_equal length) in Hp. rewrite !length_fmap in Hp.
    destruct (created reqs) as [|c cs]; simpl in Hp.
    + rewrite app_nil_r. apply drop_ge. lia.
    + by apply drop_app_length'.
Qed.

(** X16: after any sequence of requests served from the seeded store,
    every record's identifier is one of ["a"], ["b"], ["c"] and
    ["id0001"]. *)
Theorem served_IDs_among_four (reqs : list Request) :
  ∃ l, serve reqs init = Some l
       ∧ Forall (λ t, ID t ∈ ["a"; "b"; "c"; "id0001"]) l.
Proof. apply served_IDs. Qed.

(** X17: on any store served from the seeded one, [updateTodo] called
    without a string [id] argument looks for the empty identifier, finds
    nothing, returns the zero-valued record with no error and leaves the
    collection unchanged. *)
Theorem updateTodo_without_id_noop (reqs : list Request)
    (args : gmap string Value) :
  (∀ s, args !! "id" ≠ Some (VString s)) →
  ∃ l, serve reqs init = Some l
       ∧ updateTodo args l = Returned (RTodo zeroTodo) None l.
Proof.
  intros Hid. destruct (served_IDs reqs) as (l & Hl & HIDs).
  exists l. split; [exact Hl|].
  destruct (updateTodo_cases args l)
    as [[_ H] | (l1 & r & l2 & -> & _ & Hr & _)]; [exact H|].
  exfalso.
  assert (E : (assertString (args !! "id")).1 = "").
  { destruct (args !! "id") as [[s|b|n]|] eqn:E; try reflexivity.
    by destruct (Hid s). }
  rewrite E in Hr. apply Forall_app in HIDs as [_ HIDs].
  inversion HIDs as [|? ? Hin _]; subst. rewrite Hr in Hin.
  repeat (apply elem_of_cons in Hin as [Hin | Hin]; [discriminate Hin|]).
  by apply elem_of_nil in Hin.
Qed.

Lemma updateTodo_without_id_noop_witness :
  let reqs := [M_createTodo (createArgs "Buy milk" "")] in
  let args : gmap string Value := <["done" := VBool true]> ∅ in
  (∀ s, args !! "id" ≠ Some (VString s))
  ∧ ∃ l, serve reqs init = Some l
         ∧ updateTodo args l = Returned (RTodo zeroTodo) None l.
Proof.
  intros reqs args.
  assert (H : ∀ s, args !! "id" ≠ Some (VString s)) by (intros s; discriminate).
  split; [exact H|]. apply (updateTodo_without_id_noop reqs args H).
Defined.

(** ** Updates of different identifiers *)

Lemma markFirst_miss (id : string) (done : bool) (l : list Todo) :
  Forall (λ t, ID t ≠ id) l → markFirst id done l = l.
Proof.
  induction 1 as [|a l Ha _ IH]; [reflexivity|]. simpl.
  destruct (String.eqb_spec (ID a) id); [done | by rewrite IH].
Qed.

Lemma markFirst_hit (id : string) (done : bool) (l1 : list Todo) (r : Todo)
    (l2 : list Todo) :
  Forall (λ t, ID t ≠ id) l1 → ID r = id →
  markFirst id done (l1 ++ r :: l2) = l1 ++ setDone r done :: l2.
Proof.
  intros Hno Hr. induction Hno as [|a l1 Ha _ IH]; simpl.
  - by rewrite Hr, String.eqb_refl.
  - destruct (String.eqb_spec (ID a) id); [done | by rewrite IH].
Qed.

(** The index loop of [updateTodo] leaves the store [markFirst] describes. *)
Lemma updateTodo_markFirst (id : string) (done : bool) (l : list Todo) :
  ∃ v, updateTodo (updateArgs id done) l
       = Returned v None (markFirst id done l).
Proof.
  destruct (first_match_split id l) as [Hno | (k1 & r & k2 & -> & Hno & Hr)].
  - rewrite markFirst_miss by exact Hno. eexists.
    apply (updateTodo_missing_zero_unchanged_aux _ id);
      auto using updateArgs_id.
  - rewrite markFirst_hit by assumption. eexists.
    apply (updateTodo_first_match_aux _ id);
      auto using updateArgs_id, updateArgs_done.
Qed.

Lemma markFirst_comm (id1 id2 : string) (d1 d2 : bool) (l : list Todo) :
  id1 ≠ id2 →
  markFirst id2 d2 (markFirst id1 d1 l) = markFirst id1 d1 (markFirst id2 d2 l).
Proof.
  intros Hne. induction l as [|a l IH]; [reflexivity|]. simpl.
  destruct (String.eqb_spec (ID a) id1) as [H1|H1];
    destruct (String.eqb_spec (ID a) id2) as [H2|H2]; simpl.
  - congruence.
  - destruct (String.eqb_spec (ID a) id2); [done|].
    destruct (String.eqb_spec (ID a) id1); [reflexivity | done].
  - destruct (String.eqb_spec (ID a) id1); [done|].
    destruct (String.eqb_spec (ID a) id2); [reflexivity | done].
  - destruct (String.eqb_spec (ID a) id1); [done|].
    destruct (String.eqb_spec (ID a) id2); [done|]. by rewrite IH.
Qed.

(** X18: two [updateTodo] calls on different identifiers commute: run in
    either order from the same store, they leave the same store. *)
Theorem updateTodo_different_ids_commute (id1 id2 : string) (d1 d2 : bool)
    (l : list Todo) :
  id1 ≠ id2 →
  ∃ v1 la v2 w2 lb w1 l',
    updateTodo (updateArgs id1 d1) l = Returned v1 None la
    ∧ updateTodo (updateArgs id2 d2) la = Returned v2 None l'
    ∧ updateTodo (updateArgs id2 d2) l = Returned w2 None lb
    ∧ updateTodo (updateArgs id1 d1) lb = Returned w1 None l'.
Proof.
  intros Hne.
  destruct (updateTodo_markFirst id1 d1 l) as [v1 H1].
  destruct (updateTodo_markFirst id2 d2 (markFirst id1 d1 l)) as [v2 H12].
  destruct (updateTodo_markFirst id2 d2 l) as [w2 H2].
  destruct (updateTodo_markFirst id1 d1 (markFirst id2 d2 l)) as [w1 H21].
  exists v1, (markFirst id1 d1 l), v2, w2, (markFirst id2 d2 l), w1,
         (markFirst id2 d2 (markFirst id1 d1 l)).
  repeat split; [exact H1 | exact H12 | exact H2 |].
  rewrite (markFirst_comm id1 id2) by exact Hne. exact H21.
Qed.

Lemma updateTodo_different_ids_commute_witness :
  "a" ≠ "c"
  ∧ ∃ v1 la v2 w2 lb w1 l',
      updateTodo (updateArgs "a" true) init = Returned v1 None la
      ∧ updateTodo (updateArgs "c" true) la = Returned v2 None l'
      ∧ updateTodo (updateArgs "c" true) init = Returned w2 None lb
      ∧ updateTodo (updateArgs "a" true) lb = Returned w1 None l'.
Proof.
  assert (Hne : "a" ≠ "c") by discriminate.
  split; [exact Hne|].
  apply (updateTodo_different_ids_commute "a" "c" true true init Hne).
Defined.
